(** * COM-LZ orbital simulation: the numeric core

    A shallow embedding of the numeric pipeline of
    [code/com_lz_orbital_simulation.py]: the attractor radius model, the
    resonance potential, the drift right-hand side and the trajectory
    simulator.  The plotting functions are left out.

    Conventions of the embedding.
    - Python floats and NumPy float64 values are idealised as real
      numbers ([R]).  The one exception the interpreter raises on the
      way, the overflow of [LZ ** n], is modelled apart in [Overflow];
      the statements that turn on rounding are settled over binary64
      values in [F64].
    - A Python integer is a [Z]; [%] with a positive divisor is
      [Z.modulo], and [x ** n] for an integer [n] of either sign is
      [powerRZ].
    - A raised exception is [None] in the [py] monad.
    - The one place where the program appends to a list while another
      list is shared by reference ([simulate_debris_drift]) is written
      in a state-and-exception monad over an explicit store. *)

From Stdlib Require Import Reals Lra Lia ZArith List Psatz.
From Stdlib Require Import Machin.
Import ListNotations.
Open Scope R_scope.

(** ** Exceptions *)

Module Py.

Definition py (A : Type) : Type := option A.

Definition ret {A} (x : A) : py A := Some x.

Definition bind {A B} (c : py A) (k : A -> py B) : py B :=
  match c with
  | Some x => k x
  | None => None
  end.

(** A list comprehension whose element expression may raise. *)
Fixpoint mapM {A B} (f : A -> py B) (l : list A) : py (list B) :=
  match l with
  | [] => ret []
  | x :: l' =>
      bind (f x) (fun y => bind (mapM f l') (fun ys => ret (y :: ys)))
  end.

(** True division, in its strictest reading: a zero divisor raises
    ([ZeroDivisionError] for Python floats; NumPy scalars and arrays
    would give [inf] with a warning instead). *)
Definition div (a b : R) : py R :=
  if Req_dec_T b 0 then None else Some (a / b).

End Py.

Import Py.

Declare Scope py_scope.
Delimit Scope py_scope with py.
Notation "x <- c ;; k" := (Py.bind c (fun x => k))
  (at level 61, c at next level, right associativity) : py_scope.

(** ** The NumPy fragment the program uses *)

Module Np.

(** The values the parameter [r] of [resonance_potential] takes: a
    float (from [plot_collector_field]) or a one-dimensional array
    (the state vector handed over by [odeint]). *)
Inductive value : Type :=
| Float (x : R)
| Array (xs : list R).

(** An arithmetic expression applied to a value acts on a float
    directly and on an array entry by entry. *)
Definition elementwise (f : R -> py R) (v : value) : py value :=
  match v with
  | Float x => (y <- f x ;; ret (Float y))%py
  | Array xs => (ys <- mapM f xs ;; ret (Array ys))%py
  end.

Definition Rsum (l : list R) : R := fold_right Rplus 0 l.

(** All the entries of a value, added up. *)
Definition total (v : value) : R :=
  match v with
  | Float x => x
  | Array xs => Rsum xs
  end.

(** [np.sum] of a Python list with no axis: every entry of every
    element is added; the empty list gives [0.0]. *)
Definition sum (l : list value) : R := Rsum (map total l).

(** [y[-1] = stop] on a non-empty array. *)
Definition set_last (y : list R) (stop : R) : list R :=
  removelast y ++ [stop].

(** [np.linspace(start, stop, num)] with the default [endpoint=True]:
    [arange(0, num) * step + start] with [step = (stop - start) / (num - 1)],
    the last sample overwritten by [stop]; a negative [num] raises
    [ValueError].  With a single sample there is no step and the one
    sample is [start].  (The library's separate path for a zero step,
    [y / div * delta], gives the same real numbers.) *)
Definition linspace (start stop : R) (num : Z) : py (list R) :=
  if (num <? 0)%Z then None
  else
    let div := (num - 1)%Z in
    let delta := stop - start in
    let y := map INR (seq 0 (Z.to_nat num)) in
    let y :=
      if (0 <? div)%Z
      then map (fun v => v * (delta / IZR div)) y
      else map (fun v => v * delta) y in
    let y := map (fun v => v + start) y in
    ret (if (1 <? num)%Z then set_last y stop else y).

End Np.

(** ** Constants *)

Definition LZ : R := 1.23498288.
Definition R_EARTH : R := 6371.

(** ** RadiusModel *)

(** [((n - 1) % 9 + 1) / 9] *)
Definition octave_factor (n : Z) : R := IZR ((n - 1) mod 9 + 1) / 9.

(** [R_EARTH * (LZ ** n)] *)
Definition base_radius (n : Z) : R := R_EARTH * powerRZ LZ n.

Definition com_lz_attractor_radius (n : Z) : R :=
  base_radius n * (1 + 0.1 * sin (octave_factor n * 2 * PI)).

(** ** PotentialField *)

(** One summand [1 / (1 + 0.01 * abs(r - r_a)**2)] at one entry [x] of [r]. *)
Definition potential_term (r_a x : R) : py R :=
  Py.div 1 (1 + 0.01 * Rabs (x - r_a) ^ 2).

Definition resonance_potential (r : Np.value) (n_vals : list Z) : py R :=
  let attractor_radii := map com_lz_attractor_radius n_vals in
  (terms <- mapM (fun r_a => Np.elementwise (potential_term r_a) r)
                 attractor_radii ;;
   ret (Np.sum terms))%py.

(** ** DriftDynamics *)

(** [r] is the state array [[position, velocity]] that the integrator
    passes; [r + dr] and [r - dr] shift every entry of it, and [r[1]]
    raises [IndexError] on an array with fewer than two entries. *)
Definition drift_acceleration (r : list R) (t : R) (n_vals : list Z)
  : py (list R) :=
  let dr := 1 in
  (pot_plus <- resonance_potential (Np.Array (map (fun x => x + dr) r)) n_vals ;;
   pot_minus <- resonance_potential (Np.Array (map (fun x => x - dr) r)) n_vals ;;
   let gradient := (pot_plus - pot_minus) / (2 * dr) in
   r1 <- nth_error r 1 ;;
   let damping := - 0.1 * r1 in
   ret [r1; - gradient + damping])%py.

(** ** TrajectorySimulator *)

(** One dictionary appended to [results]; the data frame is the list of
    these rows in insertion order. *)
Record row : Type := mkRow {
  particle : nat;
  time : R;
  radius : R;
  velocity : R
}.

(** The objects the simulator can reach: the list object behind the
    argument [n_vals] (shared with the caller and with every call of
    the right-hand side) and the local list [results]. *)
Record store : Type := mkStore {
  n_vals_obj : list Z;
  results : list row
}.

Module St.

(** State and exceptions: the store survives a raised exception. *)
Definition M (A : Type) : Type := store -> py A * store.

Definition ret {A} (x : A) : M A := fun s => (Some x, s).

Definition bind {A B} (c : M A) (k : A -> M B) : M B :=
  fun s =>
    match c s with
    | (Some x, s') => k x s'
    | (None, s') => (None, s')
    end.

Definition lift {A} (c : py A) : M A := fun s => (c, s).

(** Reading through the reference [n_vals]. *)
Definition read_n_vals : M (list Z) := fun s => (Some (n_vals_obj s), s).

(** [results = []] *)
Definition new_results : M unit :=
  fun s => (Some tt, mkStore (n_vals_obj s) []).

(** [results.append(d)] *)
Definition append_result (d : row) : M unit :=
  fun s => (Some tt, mkStore (n_vals_obj s) (results s ++ [d])).

Definition read_results : M (list row) := fun s => (Some (results s), s).

(** A [for] loop over a list. *)
Fixpoint for_each {A} (body : A -> M unit) (l : list A) : M unit :=
  match l with
  | [] => ret tt
  | x :: l' => bind (body x) (fun _ => for_each body l')
  end.

End St.

Declare Scope st_scope.
Delimit Scope st_scope with st.
Notation "x <- c ;; k" := (St.bind c (fun x => k))
  (at level 61, c at next level, right associativity) : st_scope.
Notation "c ;;; k" := (St.bind c (fun _ => k))
  (at level 61, right associativity) : st_scope.

(** [enumerate(l)] *)
Definition enumerate {A} (l : list A) : list (nat * A) :=
  combine (seq 0 (length l)) l.

(** The signature of [scipy.integrate.odeint] as it is called here:
    right-hand side (with [args] already supplied), initial state, time
    points; the result has one row per time point. *)
Definition integrator : Type :=
  (list R -> R -> py (list R)) -> list R -> list R -> py (list (list R)).

Definition default_num_points : Z := 1000.

Section Simulator.

Variable odeint : integrator.

(** The body of the inner loop: one sample of one particle. *)
Definition store_sample (i : nat) (t : list R) (sol : list (list R))
    (j : nat) : St.M unit :=
  (t_j <- St.lift (nth_error t j) ;;
   sol_j <- St.lift (nth_error sol j) ;;
   sol_j0 <- St.lift (nth_error sol_j 0) ;;
   sol_j1 <- St.lift (nth_error sol_j 1) ;;
   St.append_result (mkRow i t_j sol_j0 sol_j1))%st.

(** The body of the outer loop: integrate one particle and store its
    samples. *)
Definition simulate_particle (t : list R) (p : nat * R) : St.M unit :=
  let '(i, r0) := p in
  let y0 := [r0; 0] in
  (n_vals <- St.read_n_vals ;;
   sol <- St.lift (odeint (fun y s => drift_acceleration y s n_vals) y0 t) ;;
   St.for_each (store_sample i t sol) (seq 0 (length t)))%st.

(** The argument [n_vals] is the reference to [n_vals_obj] of the
    store. *)
Definition simulate_debris_drift (initial_radii : list R) (t_span : R)
    (num_points : Z) : St.M (list row) :=
  (t <- St.lift (Np.linspace 0 t_span num_points) ;;
   St.new_results ;;;
   St.for_each (simulate_particle t) (enumerate initial_radii) ;;;
   St.read_results)%st.

End Simulator.

(** An explicit Euler scheme, the simplest integrator with the
    signature of [odeint]; it stands in for the library routine where a
    concrete integrator is needed. *)
Fixpoint euler_steps (func : list R -> R -> py (list R)) (y : list R) (s : R)
    (ts : list R) : py (list (list R)) :=
  match ts with
  | [] => Py.ret []
  | s' :: ts' =>
      (dy <- func y s ;;
       let y' := map (fun p => fst p + (s' - s) * snd p) (combine y dy) in
       rest <- euler_steps func y' s' ts' ;;
       ret (y' :: rest))%py
  end.

Definition euler : integrator :=
  fun func y0 t =>
    match t with
    | [] => None
    | s0 :: ts => (rest <- euler_steps func y0 s0 ts ;; ret (y0 :: rest))%py
    end.

(** ** Closed forms used in the statements *)

(** The value of one summand of the potential. *)
Definition term_value (r_a x : R) : R := 1 / (1 + 0.01 * Rabs (x - r_a) ^ 2).

(** The potential at one real radius [x]: the sum of the summands over
    the attractors of [n_vals]. *)
Definition potential_at (x : R) (n_vals : list Z) : R :=
  Np.Rsum (map (fun n => term_value (com_lz_attractor_radius n) x) n_vals).

Module Spec.

(** DriftDynamics as section 4.3 of the specification words it: the
    gradient is the central difference of the potential at the
    position alone. *)
Definition drift_acceleration (position velocity : R) (n_vals : list Z)
  : py (list R) :=
  (pot_plus <- resonance_potential (Np.Float (position + 1)) n_vals ;;
   pot_minus <- resonance_potential (Np.Float (position - 1)) n_vals ;;
   let gradient := (pot_plus - pot_minus) / 2 in
   let damping := - 0.1 * velocity in
   ret [velocity; - gradient + damping])%py.

End Spec.

(** ** The simulator in closed form *)

(** Strictly increasing samples. *)
Definition ascending (l : list R) : Prop :=
  forall (i j : nat) (a b : R),
    (i < j)%nat -> nth_error l i = Some a -> nth_error l j = Some b -> a < b.

(** What the simulator relies on from [odeint]: on a non-empty,
    strictly increasing grid and a right-hand side that returns a
    derivative of the state's shape, it returns one row of that shape
    per grid point, the first row being the initial state. *)
Definition integrator_contract (odeint : integrator) : Prop :=
  forall (func : list R -> R -> py (list R)) (y0 t : list R),
    t <> [] ->
    ascending t ->
    (forall y s, length y = length y0 ->
                 exists dy, func y s = Some dy /\ length dy = length y0) ->
    exists sol,
      odeint func y0 t = Some sol
      /\ length sol = length t
      /\ Forall (fun y => length y = length y0) sol
      /\ nth_error sol 0 = Some y0.

(** Sample [j] of particle [i], as a value. *)
Definition sample (i : nat) (t : list R) (sol : list (list R)) (j : nat)
  : py row :=
  (t_j <- nth_error t j ;;
   sol_j <- nth_error sol j ;;
   sol_j0 <- nth_error sol_j 0 ;;
   sol_j1 <- nth_error sol_j 1 ;;
   ret (mkRow i t_j sol_j0 sol_j1))%py.

(** The trajectory of one particle: a function of its index, its own
    initial radius, the attractor list and the grid. *)
Definition particle_trajectory (odeint : integrator) (n_vals : list Z)
    (t : list R) (p : nat * R) : py (list row) :=
  let '(i, r0) := p in
  (sol <- odeint (fun y s => drift_acceleration y s n_vals) [r0; 0] t ;;
   mapM (sample i t sol) (seq 0 (length t)))%py.

(** A command that leaves the attractor list [nv] alone and either
    appends the rows [p] evaluates to, or raises when [p] raises. *)
Definition appends (nv : list Z) (c : St.M unit) (p : py (list row)) : Prop :=
  forall s : store,
    n_vals_obj s = nv ->
    n_vals_obj (snd (c s)) = nv
    /\ match p with
       | Some rows => c s = (Some tt, mkStore nv (results s ++ rows))
       | None => fst (c s) = None
       end.

(** The row built from sample [j] when every index is in range. *)
Definition row_at (i : nat) (t : list R) (sol : list (list R)) (j : nat) : row :=
  mkRow i (nth j t 0) (nth 0 (nth j sol []) 0) (nth 1 (nth j sol []) 0).

From Stdlib Require PrimFloat Uint63.

(** ** The data behind the plots *)

(** Python's [max] over a sequence: [ValueError] on an empty one. *)
Definition py_max (l : list R) : py R :=
  match l with
  | [] => None
  | x :: l' => Some (fold_left Rmax l' x)
  end.

(** [plot_attractor_map]: the half-width [max(radii) * 1.1] of the
    square window set by [set_xlim] and [set_ylim]. *)
Definition max_radius (n_range : list Z) : py R :=
  let radii := map com_lz_attractor_radius n_range in
  (m <- py_max radii ;; ret (m * 1.1))%py.

(** [df['particle']]: the frame built from an empty list of rows has no
    columns, and asking it for one raises [KeyError]. *)
Definition particle_column (df : list row) : py (list nat) :=
  match df with
  | [] => None
  | _ :: _ => Some (map particle df)
  end.

(** [Series.unique()]: the distinct values in order of first
    appearance. *)
Fixpoint unique (l : list nat) : list nat :=
  match l with
  | [] => []
  | x :: l' => x :: filter (fun y => negb (y =? x)%nat) (unique l')
  end.

(** [df[df['particle'] == p]] *)
Definition particle_data (df : list row) (p : nat) : list row :=
  filter (fun d => (particle d =? p)%nat) df.

(** [plot_drift_simulation]: one line per particle, as the label index
    and the time and radius columns handed to [ax.plot]. *)
Definition drift_lines (df : list row) : py (list (nat * (list R * list R))) :=
  (col <- particle_column df ;;
   ret (map (fun p =>
               let data := particle_data df p in
               (p, (map time data, map radius data)))
            (unique col)))%py.


(** Blocks of rows numbered from [a]: none is empty and block [i]
    holds rows of particle [a + i] only. *)
Fixpoint blocks_from (a : nat) (blocks : list (list row)) : Prop :=
  match blocks with
  | [] => True
  | b :: bs =>
      b <> [] /\ Forall (fun d => particle d = a) b /\ blocks_from (S a) bs
  end.


(** ** Overflow of [LZ ** n] *)

Module Overflow.

(** Every binary64 value is below [2 ^ 1024]; Python's [float ** int]
    raises [OverflowError] when the power is not. *)
Definition limit : R := 2 ^ 1024.

Definition float_pow (x : R) (n : Z) : py R :=
  if Rlt_dec (powerRZ x n) limit then Some (powerRZ x n) else None.

(** [com_lz_attractor_radius] with the exception of [LZ ** n]. *)
Definition com_lz_attractor_radius (n : Z) : py R :=
  (p <- float_pow LZ n ;;
   let base_radius := R_EARTH * p in
   ret (base_radius * (1 + 0.1 * sin (octave_factor n * 2 * PI))))%py.

(** [resonance_potential] with the exceptions of the list
    comprehension of the attractor radii. *)
Definition resonance_potential (r : Np.value) (n_vals : list Z) : py R :=
  (attractor_radii <- mapM com_lz_attractor_radius n_vals ;;
   terms <- mapM (fun r_a => Np.elementwise (potential_term r_a) r)
                 attractor_radii ;;
   ret (Np.sum terms))%py.

End Overflow.

(** The harmonic steps for which [LZ ** n], and with it the radius, is
    a normal binary64 number, far from overflow and from underflow. *)
Definition in_float_range (n : Z) : Prop := (-3000 <= n <= 3000)%Z.

(** ** Binary64 arithmetic

    The radius and one summand of the potential over IEEE 754 binary64
    values, operation by operation as the interpreter evaluates them.
    The C library functions behind [**] and [np.sin] are parameters of
    the radius. *)

Set Warnings "-inexact-float".

Module F64.

Import PrimFloat.
Local Open Scope float_scope.

Definition LZ : float := 1.23498288.
Definition R_EARTH : float := 6371.
Definition pi : float := 3.141592653589793.

(** A small Python integer as a float. *)
Definition of_int (k : Z) : float := of_uint63 (Uint63.of_Z k).

Definition com_lz_attractor_radius (pow : float -> Z -> float)
    (sin : float -> float) (n : Z) : float :=
  let base_radius := R_EARTH * pow LZ n in
  let octave_factor := of_int ((n - 1) mod 9 + 1) / of_int 9 in
  base_radius * (1 + 0.1 * sin (octave_factor * 2 * pi)).

(** [1 / (1 + 0.01 * abs(r - r_a)**2)], the square being the rounded
    product; for a one-attractor list this summand is what
    [resonance_potential] returns. *)
Definition potential_term (r_a r : float) : float :=
  1 / (1 + 0.01 * (abs (r - r_a) * abs (r - r_a))).

(** The values the C library returns for [LZ ** 1], [LZ ** 9] and
    [LZ ** 10]. *)
Definition libm_pow (x : float) (n : Z) : float :=
  match n with
  | 1%Z => 1.23498288
  | 9%Z => 6.682645678017459
  | 10%Z => 8.252953005457554
  | _ => nan
  end.

(** The value the C library returns for the sine of
    [1 / 9 * 2 * pi = 0.6981317007977318]. *)
Definition libm_sin (x : float) : float :=
  if x =? 0.6981317007977318 then 0.6427876096865393 else nan.

(** [com_lz_attractor_radius(1)] and [com_lz_attractor_radius(3)] as
    the program computes them. *)
Definition radius_1 : float := 8373.826100369984.
Definition radius_3 : float := 13039.505827143317.

End F64.

(** * Properties *)

(** ** RadiusModel *)

Lemma LZ_pos : 0 < LZ.
Proof. unfold LZ; lra. Qed.

Lemma LZ_neq_0 : LZ <> 0.
Proof. pose proof LZ_pos; lra. Qed.

Lemma octave_index_range (n : Z) : (1 <= (n - 1) mod 9 + 1 <= 9)%Z.
Proof. pose proof (Z.mod_pos_bound (n - 1) 9); lia. Qed.

Lemma octave_factor_range (n : Z) : 0 < octave_factor n <= 1.
Proof.
  unfold octave_factor.
  destruct (octave_index_range n) as [Hlo Hhi].
  apply IZR_le in Hlo, Hhi.
  split; lra.
Qed.

Lemma octave_factor_period (n : Z) : octave_factor (n + 9) = octave_factor n.
Proof.
  unfold octave_factor.
  replace (n + 9 - 1)%Z with (n - 1 + 1 * 9)%Z by lia.
  now rewrite Z.mod_add by lia.
Qed.

Lemma base_radius_pos (n : Z) : 0 < base_radius n.
Proof.
  unfold base_radius, R_EARTH.
  apply Rmult_lt_0_compat; [lra | apply powerRZ_lt, LZ_pos].
Qed.

Lemma modulation_range (n : Z) :
  0.9 <= 1 + 0.1 * sin (octave_factor n * 2 * PI) <= 1.1.
Proof.
  pose proof (SIN_bound (octave_factor n * 2 * PI)) as [Hlo Hhi].
  split; lra.
Qed.

Lemma radius_pos (n : Z) : 0 < com_lz_attractor_radius n.
Proof.
  unfold com_lz_attractor_radius.
  apply Rmult_lt_0_compat; [apply base_radius_pos|].
  pose proof (modulation_range n); lra.
Qed.

(** C2. For every integer [n], also zero or negative,
    [com_lz_attractor_radius n] is [base * (1 + 0.1 * sin (octave * 2 * pi))]
    with [base = 6371 * 1.23498288 ** n] (a negative exponent giving the
    reciprocal of the positive power) and
    [octave = ((n - 1) mod 9 + 1) / 9], and the octave factor lies in
    [(0, 1]]. *)
Theorem radius_formula (n : Z) :
  com_lz_attractor_radius n
  = (6371 * powerRZ 1.23498288 n)
    * (1 + 0.1 * sin (IZR ((n - 1) mod 9 + 1) / 9 * 2 * PI))
  /\ (powerRZ 1.23498288 n
      = if (0 <=? n)%Z then 1.23498288 ^ Z.to_nat n
        else / 1.23498288 ^ Z.to_nat (- n))
  /\ 0 < octave_factor n <= 1.
Proof.
  split; [reflexivity|].
  split; [|apply octave_factor_range].
  destruct n as [|p|p]; simpl; try reflexivity.
Qed.

(** C6, amended. [n + 9] has exactly the octave factor of [n], so the
    radius at [n + 9] is its own base radius times the very modulation
    factor of the radius at [n]. *)
Theorem radius_period_9 (n : Z) :
  octave_factor (n + 9) = octave_factor n
  /\ com_lz_attractor_radius (n + 9)
     = base_radius (n + 9) * (1 + 0.1 * sin (octave_factor n * 2 * PI))
  /\ com_lz_attractor_radius n
     = base_radius n * (1 + 0.1 * sin (octave_factor n * 2 * PI)).
Proof.
  split; [apply octave_factor_period|].
  unfold com_lz_attractor_radius.
  now rewrite octave_factor_period.
Qed.

(** ** Numeric value of [radius 1] *)

Lemma PI_bounds : 3.14159 < PI < 3.1416.
Proof.
  pose proof (PI_2_3_7_ineq 2) as [Hlo Hhi].
  unfold PI_2_3_7_tg, tg_alt, Ratan_seq in Hlo, Hhi.
  simpl in Hlo, Hhi.
  split; lra.
Qed.

Lemma sin_poly_bounds (a : R) :
  0 <= a -> a <= 4 ->
  a - a ^ 3 / 6 + a ^ 5 / 120 - a ^ 7 / 5040 <= sin a
  /\ sin a <= a - a ^ 3 / 6 + a ^ 5 / 120.
Proof.
  intros H0 H4.
  pose proof (pre_sin_bound a 1 H0 H4) as [Hlo _].
  pose proof (pre_sin_bound a 0 H0 H4) as [_ Hhi].
  unfold sin_approx, sin_term in Hlo, Hhi.
  simpl in Hlo, Hhi.
  split; lra.
Qed.

Lemma sin_2PI_9_bounds : 0.64278 < sin (2 * PI / 9) < 0.64281.
Proof.
  destruct PI_bounds as [Hlo Hhi].
  split.
  - apply Rlt_le_trans with (sin (2 * 3.14159 / 9)).
    + destruct (sin_poly_bounds (2 * 3.14159 / 9)) as [H _]; lra.
    + apply sin_incr_1; lra.
  - apply Rle_lt_trans with (sin (2 * 3.1416 / 9)).
    + apply sin_incr_1; lra.
    + destruct (sin_poly_bounds (2 * 3.1416 / 9)) as [_ H]; lra.
Qed.

Lemma octave_factor_1 : octave_factor 1 = 1 / 9.
Proof. reflexivity. Qed.

Lemma base_radius_1 : base_radius 1 = 6371 * 1.23498288.
Proof. unfold base_radius, R_EARTH, LZ. now rewrite powerRZ_1. Qed.

Lemma radius_1_bounds : 8373.82 < com_lz_attractor_radius 1 < 8373.85.
Proof.
  unfold com_lz_attractor_radius.
  rewrite base_radius_1, octave_factor_1.
  replace (1 / 9 * 2 * PI) with (2 * PI / 9) by field.
  pose proof sin_2PI_9_bounds. split; lra.
Qed.

(** C7, as the claim states it, fails: [radius 1] is more than 0.1 away
    from 8373.1. *)
Lemma radius_1_not_within_tolerance_of_8373_1 :
  ~ Rabs (com_lz_attractor_radius 1 - 8373.1) <= 0.1.
Proof.
  intros H. pose proof (Rle_abs (com_lz_attractor_radius 1 - 8373.1)).
  pose proof radius_1_bounds. lra.
Qed.

(** C7, amended. [radius 1] is 8373.8 within 0.1, through
    [base = 6371 * 1.23498288] (7868.1 within 0.1), [octave = 1 / 9] and
    [sin (2 * pi / 9)] (0.6428 within 0.0001). *)
Theorem radius_1_value :
  Rabs (com_lz_attractor_radius 1 - 8373.8) <= 0.1
  /\ base_radius 1 = 6371 * 1.23498288
  /\ Rabs (base_radius 1 - 7868.1) <= 0.1
  /\ octave_factor 1 = 1 / 9
  /\ Rabs (sin (2 * PI / 9) - 0.6428) <= 0.0001.
Proof.
  pose proof radius_1_bounds. pose proof sin_2PI_9_bounds.
  repeat split.
  - apply Rabs_le; lra.
  - apply base_radius_1.
  - rewrite base_radius_1. apply Rabs_le; lra.
  - apply Rabs_le; lra.
Qed.

(** ** PotentialField and DriftDynamics *)

Lemma denominator_ge_1 (r_a x : R) : 1 <= 1 + 0.01 * Rabs (x - r_a) ^ 2.
Proof. pose proof (pow2_ge_0 (Rabs (x - r_a))); lra. Qed.

Lemma potential_term_value (r_a x : R) :
  potential_term r_a x = Some (term_value r_a x).
Proof.
  unfold potential_term, Py.div, term_value.
  destruct (Req_dec_T _ 0) as [Hz|_]; [|reflexivity].
  pose proof (denominator_ge_1 r_a x); lra.
Qed.

Lemma mapM_total {A B} (f : A -> py B) (g : A -> B) (l : list A) :
  (forall x, f x = Some (g x)) -> mapM f l = Some (map g l).
Proof.
  intros Hf; induction l as [|x l IH]; simpl; [reflexivity|].
  now rewrite Hf, IH.
Qed.

Lemma term_value_range (r_a x : R) : 0 < term_value r_a x <= 1.
Proof.
  unfold term_value.
  pose proof (denominator_ge_1 r_a x) as Hd.
  split.
  - apply Rdiv_lt_0_compat; lra.
  - unfold Rdiv. rewrite Rmult_1_l, <- Rinv_1.
    apply Rinv_le_contravar; lra.
Qed.


Lemma term_value_antitone (r_a x y : R) :
  Rabs (x - r_a) < Rabs (y - r_a) -> term_value r_a y < term_value r_a x.
Proof.
  intros Hlt. unfold term_value.
  pose proof (Rabs_pos (x - r_a)) as Hx.
  pose proof (denominator_ge_1 r_a x) as Hdx.
  assert (Hsq : Rabs (x - r_a) ^ 2 < Rabs (y - r_a) ^ 2) by nra.
  unfold Rdiv. rewrite !Rmult_1_l.
  apply Rinv_lt_contravar; nra.
Qed.

Lemma term_value_abs (r_a x y : R) :
  Rabs (x - r_a) = Rabs (y - r_a) -> term_value r_a x = term_value r_a y.
Proof. unfold term_value; now intros ->. Qed.

Lemma Rsum_map_plus {A} (f g : A -> R) (l : list A) :
  Np.Rsum (map (fun a => f a + g a) l) = Np.Rsum (map f l) + Np.Rsum (map g l).
Proof.
  induction l as [|a l IH]; simpl; [ring|]. rewrite IH; ring.
Qed.

Lemma Rsum_map_zero {A} (l : list A) : Np.Rsum (map (fun _ => 0) l) = 0.
Proof. induction l as [|a l IH]; simpl; [reflexivity|]. rewrite IH; ring. Qed.

(** Exchanging the two summations: attractors outside, entries inside. *)
Lemma Rsum_exchange {A B} (f : A -> B -> R) (la : list A) (lb : list B) :
  Np.Rsum (map (fun a => Np.Rsum (map (f a) lb)) la)
  = Np.Rsum (map (fun b => Np.Rsum (map (fun a => f a b) la)) lb).
Proof.
  induction la as [|a la IH]; simpl.
  - now rewrite Rsum_map_zero.
  - rewrite IH. now rewrite <- Rsum_map_plus.
Qed.

Lemma resonance_potential_float (x : R) (n_vals : list Z) :
  resonance_potential (Np.Float x) n_vals = Some (potential_at x n_vals).
Proof.
  unfold resonance_potential, potential_at.
  rewrite (mapM_total _ (fun r_a => Np.Float (term_value r_a x))).
  - simpl. unfold Np.sum. now rewrite !map_map.
  - intros r_a; simpl. now rewrite potential_term_value.
Qed.

Lemma resonance_potential_array (xs : list R) (n_vals : list Z) :
  resonance_potential (Np.Array xs) n_vals
  = Some (Np.Rsum (map (fun x => potential_at x n_vals) xs)).
Proof.
  unfold resonance_potential, potential_at.
  rewrite (mapM_total _ (fun r_a => Np.Array (map (term_value r_a) xs))).
  - simpl. unfold Np.sum. rewrite !map_map. simpl.
    now rewrite (Rsum_exchange (fun n x => term_value (com_lz_attractor_radius n) x)).
  - intros r_a; simpl.
    now rewrite (mapM_total _ (term_value r_a)) by apply potential_term_value.
Qed.

Lemma potential_at_nil (x : R) : potential_at x [] = 0.
Proof. reflexivity. Qed.

Lemma potential_at_cons (x : R) (n : Z) (n_vals : list Z) :
  potential_at x (n :: n_vals)
  = term_value (com_lz_attractor_radius n) x + potential_at x n_vals.
Proof. reflexivity. Qed.

Lemma potential_at_range (x : R) (n_vals : list Z) :
  0 <= potential_at x n_vals <= INR (length n_vals).
Proof.
  induction n_vals as [|n n_vals IH].
  - rewrite potential_at_nil; simpl; lra.
  - rewrite potential_at_cons.
    change (length (n :: n_vals)) with (S (length n_vals)). rewrite S_INR.
    pose proof (term_value_range (com_lz_attractor_radius n) x). lra.
Qed.

Lemma drift_acceleration_value (p v t : R) (n_vals : list Z) :
  drift_acceleration [p; v] t n_vals
  = Some [v; - (((potential_at (p + 1) n_vals + potential_at (v + 1) n_vals)
                  - (potential_at (p - 1) n_vals + potential_at (v - 1) n_vals))
                 / 2)
               + - 0.1 * v].
Proof.
  unfold drift_acceleration.
  rewrite !resonance_potential_array. simpl.
  unfold Py.ret. apply f_equal. apply f_equal2; [reflexivity|].
  apply f_equal2; [lra | reflexivity].
Qed.

Lemma spec_drift_acceleration_value (p v : R) (n_vals : list Z) :
  Spec.drift_acceleration p v n_vals
  = Some [v; - ((potential_at (p + 1) n_vals - potential_at (p - 1) n_vals) / 2)
               + - 0.1 * v].
Proof.
  unfold Spec.drift_acceleration.
  now rewrite !resonance_potential_float.
Qed.


Lemma potential_at_single (x : R) (n : Z) :
  potential_at x [n] = term_value (com_lz_attractor_radius n) x.
Proof. rewrite potential_at_cons, potential_at_nil; ring. Qed.

Lemma potential_at_abs (x y : R) (n_vals : list Z) :
  (forall n, In n n_vals ->
     Rabs (x - com_lz_attractor_radius n) = Rabs (y - com_lz_attractor_radius n)) ->
  potential_at x n_vals = potential_at y n_vals.
Proof.
  induction n_vals as [|n n_vals IH]; intros Habs; [reflexivity|].
  rewrite !potential_at_cons.
  rewrite (term_value_abs _ x y) by (apply Habs; now left).
  rewrite IH; [reflexivity|].
  intros m Hm; apply Habs; now right.
Qed.

(** Below every attractor radius the potential grows with the radius;
    in particular between [-1] and [1]. *)
Lemma term_value_gap_at_0 (r_a : R) :
  0 < r_a -> term_value r_a (0 - 1) < term_value r_a (0 + 1).
Proof.
  intros Hpos. apply term_value_antitone.
  unfold Rabs; repeat destruct (Rcase_abs _); lra.
Qed.

Lemma potential_at_gap_at_0 (n : Z) (n_vals : list Z) :
  potential_at (0 - 1) (n :: n_vals) < potential_at (0 + 1) (n :: n_vals).
Proof.
  revert n; induction n_vals as [|m n_vals IH]; intros n.
  - rewrite !potential_at_single. apply term_value_gap_at_0, radius_pos.
  - rewrite (potential_at_cons (0 - 1) n), (potential_at_cons (0 + 1) n).
    pose proof (term_value_gap_at_0 _ (radius_pos n)).
    specialize (IH m). lra.
Qed.

(** C1 (the code departs from the claim). [drift_acceleration] hands the
    whole state array to [resonance_potential], so the potential is
    summed over the position entry and the velocity entry: the returned
    acceleration is the one of the specification minus half the
    difference of the potential at [velocity + 1] and [velocity - 1].
    For the state [[radius(2) * 1.2, 0]] and the attractors [[3, 5, 7]]
    it is strictly smaller than the specified acceleration. *)
Theorem drift_acceleration_sums_velocity_entry :
  (forall (p v t : R) (n_vals : list Z),
      exists a a',
        drift_acceleration [p; v] t n_vals = Some [v; a]
        /\ Spec.drift_acceleration p v n_vals = Some [v; a']
        /\ a = a' - (potential_at (v + 1) n_vals - potential_at (v - 1) n_vals) / 2)
  /\ (exists a a',
        drift_acceleration [com_lz_attractor_radius 2 * 1.2; 0] 0 [3; 5; 7]%Z
        = Some [0; a]
        /\ Spec.drift_acceleration (com_lz_attractor_radius 2 * 1.2) 0 [3; 5; 7]%Z
           = Some [0; a']
        /\ a < a').
Proof.
  split.
  - intros p v t n_vals.
    rewrite drift_acceleration_value, spec_drift_acceleration_value.
    do 2 eexists. split; [reflexivity|]. split; [reflexivity|]. lra.
  - rewrite drift_acceleration_value, spec_drift_acceleration_value.
    do 2 eexists. split; [reflexivity|]. split; [reflexivity|].
    pose proof (potential_at_gap_at_0 3 [5; 7]%Z). lra.
Qed.


(** C5, amended. Two radii at the same absolute distance from every
    attractor radius of the list have the same potential: the potential
    depends on each attractor radius only through [|r - r_a|]. *)
Theorem potential_symmetric (r r' : R) (n_vals : list Z) :
  (forall n, In n n_vals ->
     Rabs (r - com_lz_attractor_radius n) = Rabs (r' - com_lz_attractor_radius n)) ->
  exists v,
    resonance_potential (Np.Float r) n_vals = Some v
    /\ resonance_potential (Np.Float r') n_vals = Some v.
Proof.
  intros Habs. exists (potential_at r n_vals).
  rewrite !resonance_potential_float.
  split; [reflexivity|]. now rewrite (potential_at_abs r r').
Qed.

(** C10, amended. With no attractor the potential is exactly 0; with
    [k >= 1] attractors it lies in [[0, k]], every summand lying in
    [[0, 1]]. *)
Theorem potential_range (r : R) :
  resonance_potential (Np.Float r) [] = Some 0
  /\ (forall (n : Z) (n_vals : list Z), exists v,
        resonance_potential (Np.Float r) (n :: n_vals) = Some v
        /\ 0 <= v <= INR (length (n :: n_vals)))
  /\ (forall r_a : R, exists s, potential_term r_a r = Some s /\ 0 <= s <= 1).
Proof.
  split; [apply resonance_potential_float|]. split.
  - intros n n_vals. exists (potential_at r (n :: n_vals)).
    split; [apply resonance_potential_float|apply potential_at_range].
  - intros r_a. exists (term_value r_a r).
    split; [apply potential_term_value|].
    pose proof (term_value_range r_a r). lra.
Qed.

(** ** The time grid *)

Lemma removelast_map {A B} (f : A -> B) (l : list A) :
  removelast (map f l) = map f (removelast l).
Proof.
  induction l as [|a [|b l] IH]; simpl in *; [reflexivity..|].
  now rewrite IH.
Qed.

Lemma linspace_from_0 (T : R) (num : Z) :
  (0 <= num)%Z ->
  exists t,
    Np.linspace 0 T num = Some t
    /\ length t = Z.to_nat num
    /\ (forall i, (i < Z.to_nat num)%nat ->
                  nth_error t i = Some (INR i * (T / IZR (num - 1))))
    /\ ((2 <= num)%Z -> nth_error t (Z.to_nat num - 1) = Some T).
Proof.
  intros Hnum. unfold Np.linspace.
  destruct (Z.ltb_spec num 0) as [|_]; [lia|].
  rewrite Rminus_0_r.
  destruct (Z.ltb_spec 1 num) as [H2|H1].
  - (* at least two samples *)
    destruct (Z.ltb_spec 0 (num - 1)) as [_|]; [|lia].
    destruct (Z.to_nat num) as [|m] eqn:Hm; [lia|].
    assert (HIm : IZR (num - 1) = INR m).
    { rewrite INR_IZR_INZ. f_equal. lia. }
    assert (Hmpos : 0 < INR m) by (apply lt_0_INR; lia).
    eexists. split; [reflexivity|].
    unfold Np.set_last. rewrite !removelast_map, seq_S, removelast_last.
    rewrite !map_map.
    split; [rewrite length_app, length_map, length_seq; simpl; lia|].
    split.
    + intros i Hi. destruct (Nat.eq_dec i m) as [->|Hne].
      * rewrite nth_error_app2 by (rewrite length_map, length_seq; lia).
        rewrite length_map, length_seq, Nat.sub_diag. simpl.
        f_equal. rewrite HIm. field. lra.
      * rewrite nth_error_app1 by (rewrite length_map, length_seq; lia).
        rewrite nth_error_map, nth_error_seq.
        destruct (Nat.ltb_spec i m) as [_|]; [|lia]. simpl.
        f_equal. ring.
    + intros _.
      rewrite nth_error_app2 by (rewrite length_map, length_seq; lia).
      rewrite length_map, length_seq.
      now replace (S m - 1 - m)%nat with 0%nat by lia.
  - (* zero samples or one *)
    destruct (Z.ltb_spec 0 (num - 1)) as [|_]; [lia|].
    eexists. split; [reflexivity|].
    rewrite !map_map.
    split; [now rewrite length_map, length_seq|].
    split; [|lia].
    intros i Hi. assert (i = 0%nat) as -> by lia.
    rewrite nth_error_map, nth_error_seq.
    destruct (Nat.ltb_spec 0 (Z.to_nat num)) as [_|]; [|lia]. simpl.
    f_equal. ring.
Qed.

Lemma uniform_grid_ascending (t : list R) (step : R) :
  0 < step ->
  (forall i, (i < length t)%nat -> nth_error t i = Some (INR i * step)) ->
  ascending t.
Proof.
  intros Hstep Hnth i j a b Hij Ha Hb.
  assert (Hj : (j < length t)%nat) by (apply nth_error_Some; congruence).
  rewrite Hnth in Ha, Hb by lia.
  injection Ha as <-. injection Hb as <-.
  apply Rmult_lt_compat_r; [assumption | now apply lt_INR].
Qed.

(** ** Running the loops *)

Lemma for_each_appends {A} (nv : list Z) (body : A -> St.M unit)
    (pure : A -> py (list row)) (l : list A) :
  (forall x, appends nv (body x) (pure x)) ->
  appends nv (St.for_each body l) (option_map (@concat row) (mapM pure l)).
Proof.
  intros Hbody. induction l as [|x l IH]; intros s Hs; simpl.
  - split; [assumption|].
    unfold St.ret. destruct s as [nv' res]; simpl in *; subst nv'.
    now rewrite app_nil_r.
  - unfold St.bind.
    destruct (Hbody x s Hs) as [Hnv Hx].
    destruct (pure x) as [rows|]; simpl.
    + rewrite Hx.
      destruct (IH (mkStore nv (results s ++ rows)) eq_refl) as [Hnv' Hl].
      split; [assumption|].
      destruct (mapM pure l) as [blocks|]; simpl in *.
      * now rewrite Hl, app_assoc.
      * assumption.
    + destruct (body x s) as [[u|] s']; simpl in *; [discriminate|].
      now split.
Qed.

Lemma mapM_singleton_concat {A B} (f : A -> py B) (l : list A) :
  option_map (@concat B) (mapM (fun x => option_map (fun d => [d]) (f x)) l)
  = mapM f l.
Proof.
  induction l as [|x l IH]; simpl; [reflexivity|].
  destruct (f x) as [d|]; simpl; [|reflexivity].
  rewrite <- IH.
  now destruct (mapM (fun x => option_map (fun d => [d]) (f x)) l).
Qed.

Lemma store_sample_appends (nv : list Z) (i : nat) (t : list R)
    (sol : list (list R)) (j : nat) :
  appends nv (store_sample i t sol j) (option_map (fun d => [d]) (sample i t sol j)).
Proof.
  intros s Hs. unfold store_sample, sample, St.bind, St.lift, St.append_result.
  destruct (nth_error t j) as [t_j|]; simpl; [|now split].
  destruct (nth_error sol j) as [sol_j|]; simpl; [|now split].
  destruct sol_j as [|a [|b sol_j]]; simpl; [now split..|].
  now rewrite Hs.
Qed.

Lemma simulate_particle_run (odeint : integrator) (t : list R) (i : nat)
    (r0 : R) (s : store) :
  simulate_particle odeint t (i, r0) s
  = match odeint (fun y u => drift_acceleration y u (n_vals_obj s)) [r0; 0] t with
    | Some sol => St.for_each (store_sample i t sol) (seq 0 (length t)) s
    | None => (None, s)
    end.
Proof. reflexivity. Qed.

Lemma simulate_particle_appends (odeint : integrator) (nv : list Z)
    (t : list R) (p : nat * R) :
  appends nv (simulate_particle odeint t p) (particle_trajectory odeint nv t p).
Proof.
  destruct p as [i r0]. intros s Hs.
  rewrite simulate_particle_run, Hs. unfold particle_trajectory.
  destruct (odeint _ [r0; 0] t) as [sol|]; simpl; [|now split].
  rewrite <- mapM_singleton_concat.
  now apply for_each_appends; [apply store_sample_appends|].
Qed.

Lemma simulate_debris_drift_unfold (odeint : integrator)
    (initial_radii : list R) (t_span : R) (num_points : Z) (s : store) :
  simulate_debris_drift odeint initial_radii t_span num_points s
  = match Np.linspace 0 t_span num_points with
    | Some t =>
        match St.for_each (simulate_particle odeint t) (enumerate initial_radii)
                (mkStore (n_vals_obj s) []) with
        | (Some _, s') => (Some (results s'), s')
        | (None, s') => (None, s')
        end
    | None => (None, s)
    end.
Proof. reflexivity. Qed.

(** C9. A call of [simulate_debris_drift] leaves the list object behind
    [n_vals] as it found it, whether it returns or raises; and what it
    returns is the concatenation, in particle order, of the particles'
    trajectories, each one computed from the particle's own index and
    initial radius, the attractor list and the grid. *)
Theorem simulate_keeps_n_vals_and_particles_apart (odeint : integrator)
    (initial_radii : list R) (t_span : R) (num_points : Z) (s : store) :
  n_vals_obj (snd (simulate_debris_drift odeint initial_radii t_span num_points s))
  = n_vals_obj s
  /\ fst (simulate_debris_drift odeint initial_radii t_span num_points s)
     = (t <- Np.linspace 0 t_span num_points ;;
        blocks <- mapM (particle_trajectory odeint (n_vals_obj s) t)
                       (enumerate initial_radii) ;;
        ret (concat blocks))%py.
Proof.
  rewrite simulate_debris_drift_unfold.
  destruct (Np.linspace 0 t_span num_points) as [t|]; simpl; [|now split].
  destruct (for_each_appends (n_vals_obj s) (simulate_particle odeint t)
              (particle_trajectory odeint (n_vals_obj s) t)
              (enumerate initial_radii)
              (simulate_particle_appends odeint (n_vals_obj s) t)
              (mkStore (n_vals_obj s) []) eq_refl) as [Hnv Hrun].
  destruct (mapM _ (enumerate initial_radii)) as [blocks|]; simpl in *.
  - rewrite Hrun. now split.
  - destruct (St.for_each _ _ _) as [[u|] s']; simpl in *; [discriminate|].
    now split.
Qed.


(** ** The simulator under the integrator contract *)

Lemma drift_acceleration_shape (nv : list Z) (y : list R) (s : R) :
  length y = 2%nat ->
  exists dy, drift_acceleration y s nv = Some dy /\ length dy = 2%nat.
Proof.
  intros Hy. destruct y as [|p [|v [|w y]]]; try discriminate.
  rewrite drift_acceleration_value. now eexists.
Qed.

Lemma mapM_cons {A B} (f : A -> py B) (x : A) (l : list A) :
  mapM f (x :: l) = (y <- f x ;; ys <- mapM f l ;; ret (y :: ys))%py.
Proof. reflexivity. Qed.

Lemma mapM_total_in {A B} (f : A -> py B) (g : A -> B) (l : list A) :
  (forall x, In x l -> f x = Some (g x)) -> mapM f l = Some (map g l).
Proof.
  induction l as [|x l IH]; intros Hf; simpl; [reflexivity|].
  rewrite (Hf x) by now left. simpl.
  rewrite IH; [reflexivity|]. intros z Hz; apply Hf; now right.
Qed.

Lemma sample_in_range (i : nat) (t : list R) (sol : list (list R)) (j : nat) :
  length sol = length t ->
  Forall (fun y => length y = 2%nat) sol ->
  (j < length t)%nat ->
  sample i t sol j = Some (row_at i t sol j).
Proof.
  intros Hlen Hrows Hj. unfold sample, row_at.
  rewrite (nth_error_nth' t 0 Hj). simpl.
  assert (Hj' : (j < length sol)%nat) by lia.
  rewrite (nth_error_nth' sol [] Hj'). simpl.
  assert (Hy : length (nth j sol []) = 2%nat).
  { rewrite Forall_forall in Hrows. apply Hrows. now apply nth_In. }
  destruct (nth j sol []) as [|p [|v [|w y]]]; try discriminate.
  reflexivity.
Qed.

Lemma map_nth_seq_id (t : list R) :
  map (fun j => nth j t 0) (seq 0 (length t)) = t.
Proof.
  apply (nth_ext _ _ 0 0).
  - now rewrite length_map, length_seq.
  - intros n Hn. rewrite length_map, length_seq in Hn.
    rewrite (nth_indep _ 0 (nth 0 t 0)) by now rewrite length_map, length_seq.
    rewrite (map_nth (fun j => nth j t 0)), seq_nth by assumption.
    reflexivity.
Qed.

Lemma samples_in_range (i : nat) (t : list R) (sol : list (list R)) :
  length sol = length t ->
  Forall (fun y => length y = 2%nat) sol ->
  exists rows,
    mapM (sample i t sol) (seq 0 (length t)) = Some rows
    /\ length rows = length t
    /\ map time rows = t
    /\ Forall (fun d => particle d = i) rows
    /\ (forall y0, nth_error sol 0 = Some y0 ->
          exists d, nth_error rows 0 = Some d /\ [radius d; velocity d] = y0).
Proof.
  intros Hlen Hrows.
  exists (map (row_at i t sol) (seq 0 (length t))).
  split.
  { apply mapM_total_in. intros j Hj. apply in_seq in Hj.
    apply sample_in_range; [assumption..|lia]. }
  split; [now rewrite length_map, length_seq|].
  split; [rewrite map_map; apply map_nth_seq_id|].
  split.
  { apply Forall_forall. intros d Hd. apply in_map_iff in Hd.
    now destruct Hd as [j [<- _]]. }
  intros y0 Hy0.
  destruct sol as [|y sol]; [discriminate|]. injection Hy0 as ->.
  destruct t as [|a t]; [discriminate|].
  rewrite Forall_forall in Hrows.
  assert (Hy : length y0 = 2%nat) by (apply Hrows; now left).
  destruct y0 as [|p [|v [|w y0]]]; try discriminate.
  eexists. split; reflexivity.
Qed.

Section UnderContract.

Variable odeint : integrator.
Hypothesis odeint_ok : integrator_contract odeint.

Lemma particle_trajectory_returns (nv : list Z) (t : list R) (i : nat) (r0 : R) :
  t <> [] ->
  ascending t ->
  exists rows,
    particle_trajectory odeint nv t (i, r0) = Some rows
    /\ length rows = length t
    /\ map time rows = t
    /\ Forall (fun d => particle d = i) rows
    /\ exists d, nth_error rows 0 = Some d /\ radius d = r0 /\ velocity d = 0.
Proof.
  intros Hne Hasc.
  destruct (odeint_ok (fun y s => drift_acceleration y s nv) [r0; 0] t Hne Hasc)
    as [sol [Hsol [Hlen [Hrows Hfirst]]]].
  { intros y s Hy. now apply drift_acceleration_shape. }
  destruct (samples_in_range i t sol Hlen Hrows)
    as [rows [Hmap [Hlr [Htime [Hpart Hrow0]]]]].
  exists rows. unfold particle_trajectory. rewrite Hsol. simpl.
  repeat (split; [assumption|]).
  destruct (Hrow0 _ Hfirst) as [d [Hd Heq]].
  exists d. split; [assumption|]. now injection Heq.
Qed.

Lemma trajectories_return (nv : list Z) (t : list R) (l : list (nat * R)) :
  t <> [] ->
  ascending t ->
  exists blocks,
    mapM (particle_trajectory odeint nv t) l = Some blocks
    /\ map time (concat blocks) = concat (repeat t (length l)).
Proof.
  intros Hne Hasc. induction l as [|[i r0] l [blocks [Hl Ht]]].
  - now exists [].
  - destruct (particle_trajectory_returns nv t i r0 Hne Hasc)
      as [rows [Hrows [_ [Htime _]]]].
    exists (rows :: blocks). rewrite mapM_cons, Hrows, Hl. simpl.
    split; [reflexivity|]. now rewrite map_app, Htime, Ht.
Qed.

End UnderContract.

Lemma enumerate_length {A} (l : list A) : length (enumerate l) = length l.
Proof. unfold enumerate. rewrite length_combine, length_seq. lia. Qed.

Lemma grid_for_simulation (t_span : R) (num_points : Z) :
  0 < t_span -> (2 <= num_points)%Z ->
  exists t,
    Np.linspace 0 t_span num_points = Some t
    /\ length t = Z.to_nat num_points
    /\ (forall i, (i < Z.to_nat num_points)%nat ->
                  nth_error t i = Some (INR i * (t_span / IZR (num_points - 1))))
    /\ nth_error t (Z.to_nat num_points - 1) = Some t_span
    /\ t <> []
    /\ ascending t.
Proof.
  intros HT Hnum.
  destruct (linspace_from_0 t_span num_points) as [t [Ht [Hlen [Hnth Hlast]]]];
    [lia|].
  exists t. repeat (split; [solve [auto]|]). split.
  - intros ->. simpl in Hlen. lia.
  - apply (uniform_grid_ascending t (t_span / IZR (num_points - 1))).
    + apply Rdiv_lt_0_compat; [assumption|]. apply IZR_lt. lia.
    + intros i Hi. apply Hnth. lia.
Qed.

Section Returns.

Variable odeint : integrator.
Hypothesis odeint_ok : integrator_contract odeint.

Lemma simulate_debris_drift_returns (initial_radii : list R) (t_span : R)
    (num_points : Z) (s : store) (t : list R) :
  Np.linspace 0 t_span num_points = Some t ->
  t <> [] ->
  ascending t ->
  exists blocks s',
    mapM (particle_trajectory odeint (n_vals_obj s) t) (enumerate initial_radii)
    = Some blocks
    /\ simulate_debris_drift odeint initial_radii t_span num_points s
       = (Some (concat blocks), s')
    /\ map time (concat blocks) = concat (repeat t (length initial_radii)).
Proof.
  intros Ht Hne Hasc.
  destruct (trajectories_return odeint odeint_ok (n_vals_obj s) t
              (enumerate initial_radii) Hne Hasc) as [blocks [Hblocks Htime]].
  destruct (for_each_appends (n_vals_obj s) (simulate_particle odeint t)
              (particle_trajectory odeint (n_vals_obj s) t)
              (enumerate initial_radii)
              (simulate_particle_appends odeint (n_vals_obj s) t)
              (mkStore (n_vals_obj s) []) eq_refl) as [_ Hrun].
  rewrite Hblocks in Hrun. simpl in Hrun.
  rewrite simulate_debris_drift_unfold, Ht, Hrun.
  exists blocks, (mkStore (n_vals_obj s) (concat blocks)).
  rewrite enumerate_length in Htime. auto.
Qed.

End Returns.

(** C3. Under the integrator contract: for a positive time span and at
    least two points, [simulate_debris_drift] returns a data frame
    whose time column is, for each particle in turn, the grid of
    [num_points] samples [i * t_span / (num_points - 1)], from 0 to
    [t_span].  The call with the one initial radius [radius(2) * 1.2],
    attractors [[3, 5, 7]], time span 100 and 1000 points returns 1000
    rows, all of particle 0, the first one at time 0 with that radius
    and velocity 0, the last one at time 100, the times being the grid
    and strictly increasing. *)
Theorem simulate_time_grid (odeint : integrator) :
  integrator_contract odeint ->
  (forall (initial_radii : list R) (t_span : R) (num_points : Z) (s : store),
      0 < t_span -> (2 <= num_points)%Z ->
      exists t df s',
        Np.linspace 0 t_span num_points = Some t
        /\ length t = Z.to_nat num_points
        /\ (forall i, (i < Z.to_nat num_points)%nat ->
              nth_error t i = Some (INR i * (t_span / IZR (num_points - 1))))
        /\ nth_error t (Z.to_nat num_points - 1) = Some t_span
        /\ simulate_debris_drift odeint initial_radii t_span num_points s
           = (Some df, s')
        /\ map time df = concat (repeat t (length initial_radii)))
  /\ (forall res0 : list row,
      exists df s',
        simulate_debris_drift odeint [com_lz_attractor_radius 2 * 1.2] 100 1000
          (mkStore [3; 5; 7]%Z res0) = (Some df, s')
        /\ length df = 1000%nat
        /\ Forall (fun d => particle d = 0%nat) df
        /\ nth_error df 0 = Some (mkRow 0 0 (com_lz_attractor_radius 2 * 1.2) 0)
        /\ (exists d, nth_error df 999 = Some d /\ time d = 100)
        /\ Np.linspace 0 100 1000 = Some (map time df)
        /\ ascending (map time df)).
Proof.
  intros Hode. split.
  - intros initial_radii t_span num_points s HT Hnum.
    destruct (grid_for_simulation t_span num_points HT Hnum)
      as [t [Ht [Hlen [Hnth [Hlast [Hne Hasc]]]]]].
    destruct (simulate_debris_drift_returns odeint Hode initial_radii t_span
                num_points s t Ht Hne Hasc) as [blocks [s' [_ [Hrun Htime]]]].
    exists t, (concat blocks), s'. auto 10.
  - intros res0.
    destruct (grid_for_simulation 100 1000) as [t [Ht [Hlen [Hnth [Hlast [Hne Hasc]]]]]];
      [lra|lia|].
    set (r0 := com_lz_attractor_radius 2 * 1.2).
    set (s := mkStore [3; 5; 7]%Z res0).
    destruct (simulate_debris_drift_returns odeint Hode [r0] 100 1000 s t Ht Hne Hasc)
      as [blocks [s' [Hblocks [Hrun _]]]].
    destruct (particle_trajectory_returns odeint Hode (n_vals_obj s) t 0 r0 Hne Hasc)
      as [rows [Hrows [Hlr [Htime [Hpart [d [Hd [Hrad Hvel]]]]]]]].
    change (enumerate [r0]) with [(0%nat, r0)] in Hblocks.
    rewrite mapM_cons, Hrows in Hblocks. simpl in Hblocks.
    injection Hblocks as <-.
    change (concat [rows]) with (rows ++ []) in Hrun. rewrite app_nil_r in Hrun.
    exists rows, s'.
    split; [exact Hrun|].
    split; [rewrite Hlr, Hlen; reflexivity|].
    split; [exact Hpart|].
    split.
    { rewrite Hd. f_equal.
      assert (Hp : particle d = 0%nat).
      { rewrite Forall_forall in Hpart. apply Hpart.
        eapply nth_error_In; eassumption. }
      assert (Ht0 : time d = 0).
      { assert (H0 : nth_error (map time rows) 0 = Some (time d))
          by now rewrite nth_error_map, Hd.
        rewrite Htime, Hnth in H0 by lia.
        injection H0 as H0. rewrite <- H0. simpl. ring. }
      destruct d as [dp dt drad dv]; simpl in *. now subst. }
    split.
    { assert (H999 : nth_error (map time rows) 999 = Some 100).
      { rewrite Htime. exact Hlast. }
      rewrite nth_error_map in H999.
      destruct (nth_error rows 999) as [d'|]; [|discriminate].
      exists d'. split; [reflexivity|]. now injection H999. }
    split; [now rewrite Htime|].
    now rewrite Htime.
Qed.

(** ** The Euler scheme meets the integrator contract *)

Lemma euler_steps_shape (func : list R -> R -> py (list R)) (k : nat) :
  (forall y s, length y = k -> exists dy, func y s = Some dy /\ length dy = k) ->
  forall (ts : list R) (y : list R) (s : R),
    length y = k ->
    exists rest,
      euler_steps func y s ts = Some rest
      /\ length rest = length ts
      /\ Forall (fun z => length z = k) rest.
Proof.
  intros Hfunc ts. induction ts as [|s' ts IH]; intros y s Hy.
  - exists []. repeat split. constructor.
  - destruct (Hfunc y s Hy) as [dy [Hdy Hlen]].
    set (y' := map (fun p => fst p + (s' - s) * snd p) (combine y dy)).
    assert (Hy' : length y' = k).
    { unfold y'. rewrite length_map, length_combine. lia. }
    destruct (IH y' s' Hy') as [rest [Hrest [Hlr Hall]]].
    exists (y' :: rest). simpl. rewrite Hdy. simpl. fold y'. rewrite Hrest. simpl.
    repeat split; [now rewrite Hlr | now constructor].
Qed.

Lemma euler_contract : integrator_contract euler.
Proof.
  intros func y0 t Hne _ Hfunc.
  destruct t as [|s0 ts]; [contradiction|].
  destruct (euler_steps_shape func (length y0) Hfunc ts y0 s0 eq_refl)
    as [rest [Hrest [Hlr Hall]]].
  exists (y0 :: rest). unfold euler. rewrite Hrest. simpl.
  repeat split; [now rewrite Hlr | now constructor].
Qed.

(** The contract is met by the Euler scheme, and with it the example
    call returns its 1000 rows. *)
Lemma simulate_time_grid_euler :
  integrator_contract euler
  /\ exists df s',
       simulate_debris_drift euler [com_lz_attractor_radius 2 * 1.2] 100 1000
         (mkStore [3; 5; 7]%Z []) = (Some df, s')
       /\ length df = 1000%nat
       /\ nth_error df 0 = Some (mkRow 0 0 (com_lz_attractor_radius 2 * 1.2) 0).
Proof.
  split; [exact euler_contract|].
  destruct (simulate_time_grid euler euler_contract) as [_ Hcall].
  destruct (Hcall []) as [df [s' [Hrun [Hlen [_ [Hfirst _]]]]]].
  exists df, s'. repeat split; assumption.
Defined.


(** Two units above and below [radius 1] the potential over [[1]] is
    the same. *)
Lemma potential_symmetric_at_1 :
  exists v,
    resonance_potential (Np.Float (com_lz_attractor_radius 1 + 2)) [1%Z] = Some v
    /\ resonance_potential (Np.Float (com_lz_attractor_radius 1 - 2)) [1%Z] = Some v.
Proof.
  apply potential_symmetric. intros n [<-|[]].
  replace (com_lz_attractor_radius 1 + 2 - com_lz_attractor_radius 1) with 2 by ring.
  replace (com_lz_attractor_radius 1 - 2 - com_lz_attractor_radius 1) with (- (2)) by ring.
  now rewrite Rabs_Ropp.
Defined.

(** ** Overflow of [LZ ** n] *)

Lemma LZ_pow_10_bounds : 8 <= LZ ^ 10 <= 9.
Proof. unfold LZ. split; lra. Qed.

Lemma LZ_pow_ge_1 (k : nat) : 1 <= LZ ^ k.
Proof. apply pow_R1_Rle. unfold LZ; lra. Qed.

Lemma powerRZ_LZ_monotone (n m : Z) :
  (n <= m)%Z -> powerRZ LZ n <= powerRZ LZ m.
Proof.
  intros Hnm.
  replace m with (n + (m - n))%Z by lia.
  rewrite powerRZ_add by apply LZ_neq_0.
  pose proof (powerRZ_lt LZ n LZ_pos) as Hpos.
  assert (H1 : 1 <= powerRZ LZ (m - n)).
  { destruct (m - n)%Z as [|p|p] eqn:Hp; simpl; [lra|apply LZ_pow_ge_1|lia]. }
  nra.
Qed.

Lemma powerRZ_LZ_3000 : powerRZ LZ 3000 <= 9 ^ 300.
Proof.
  change (powerRZ LZ 3000) with (LZ ^ (10 * 300)).
  rewrite pow_mult. apply pow_incr.
  pose proof LZ_pow_10_bounds. lra.
Qed.










(** ** Binary64 values of the potential and the radius *)

Module Binary64.

Import PrimFloat.
Local Open Scope float_scope.


(** C5, as the claim states it, fails in binary64: at [radius(1) + 200.3]
    and [radius(1) - 200.3] the potential over [[1]] takes two different
    values. *)
Lemma potential_not_symmetric :
  F64.potential_term F64.radius_1 (F64.radius_1 + 200.3) = 0.0024863196477183597
  /\ F64.potential_term F64.radius_1 (F64.radius_1 - 200.3) = 0.002486319647718337
  /\ (F64.potential_term F64.radius_1 (F64.radius_1 + 200.3)
      =? F64.potential_term F64.radius_1 (F64.radius_1 - 200.3)) = false.
Proof. repeat split; vm_compute; reflexivity. Qed.

(** C6, as the claim states it, fails in binary64: [radius(10)] and
    [LZ ** 9 * radius(1)] differ in the last place. *)
Lemma radius_10_is_not_LZ_pow_9_times_radius_1 :
  F64.com_lz_attractor_radius F64.libm_pow F64.libm_sin 1 = F64.radius_1
  /\ F64.com_lz_attractor_radius F64.libm_pow F64.libm_sin 10 = 55959.31279810728
  /\ F64.libm_pow F64.LZ 9 * F64.com_lz_attractor_radius F64.libm_pow F64.libm_sin 1
     = 55959.31279810727
  /\ (F64.com_lz_attractor_radius F64.libm_pow F64.libm_sin 10
      =? F64.libm_pow F64.LZ 9
         * F64.com_lz_attractor_radius F64.libm_pow F64.libm_sin 1) = false.
Proof. repeat split; vm_compute; reflexivity. Qed.

(** C10, as the claim states it, fails in binary64: at [r = 1e200] the
    square of the distance overflows and the potential over [[3]] is
    exactly 0.0, outside [(0, 1]]. *)
Lemma potential_is_zero_far_away :
  F64.potential_term F64.radius_3 1e200 = 0.
Proof. vm_compute. reflexivity. Qed.

End Binary64.

(** * Further properties *)

(** ** RadiusModel *)

Lemma base_radius_succ (n : Z) : base_radius (n + 1) = base_radius n * LZ.
Proof.
  unfold base_radius. rewrite powerRZ_add by apply LZ_neq_0.
  rewrite powerRZ_1. ring.
Qed.

Lemma radius_base_bounds (n : Z) :
  0.9 * base_radius n <= com_lz_attractor_radius n <= 1.1 * base_radius n.
Proof.
  unfold com_lz_attractor_radius.
  pose proof (base_radius_pos n). pose proof (modulation_range n). split; nra.
Qed.

Lemma radius_step (n : Z) :
  com_lz_attractor_radius n < com_lz_attractor_radius (n + 1).
Proof.
  pose proof (radius_base_bounds n) as [_ Hhi].
  pose proof (radius_base_bounds (n + 1)) as [Hlo _].
  rewrite base_radius_succ in Hlo.
  pose proof (base_radius_pos n). unfold LZ in Hlo. nra.
Qed.

Lemma radius_steps (n : Z) (k : nat) :
  com_lz_attractor_radius n < com_lz_attractor_radius (n + Z.of_nat (S k)).
Proof.
  induction k as [|k IH].
  - apply radius_step.
  - replace (n + Z.of_nat (S (S k)))%Z with (n + Z.of_nat (S k) + 1)%Z by lia.
    eapply Rlt_trans; [exact IH | apply radius_step].
Qed.

Lemma octave_factor_multiple_of_9 (n : Z) :
  (n mod 9 = 0)%Z -> octave_factor n = 1.
Proof.
  intros Hn. unfold octave_factor.
  assert (H8 : ((n - 1) mod 9 = 8)%Z).
  { pose proof (Z.div_mod n 9). pose proof (Z.div_mod (n - 1) 9).
    pose proof (Z.mod_pos_bound (n - 1) 9). lia. }
  rewrite H8. simpl. field.
Qed.

Lemma radius_0 : com_lz_attractor_radius 0 = R_EARTH.
Proof.
  unfold com_lz_attractor_radius.
  rewrite octave_factor_multiple_of_9 by reflexivity.
  rewrite Rmult_1_l, sin_2PI. unfold base_radius. simpl. ring.
Qed.

Lemma radius_step_gap (n : Z) :
  1.01 * com_lz_attractor_radius n < com_lz_attractor_radius (n + 1).
Proof.
  pose proof (radius_base_bounds n) as [_ Hhi].
  pose proof (radius_base_bounds (n + 1)) as [Hlo _].
  rewrite base_radius_succ in Hlo.
  pose proof (base_radius_pos n). unfold LZ in Hlo. nra.
Qed.

Lemma radius_steps_gap (n : Z) (k : nat) :
  1.01 * com_lz_attractor_radius n < com_lz_attractor_radius (n + Z.of_nat (S k)).
Proof.
  destruct k as [|k]; [apply radius_step_gap|].
  replace (n + Z.of_nat (S (S k)))%Z with (n + Z.of_nat (S k) + 1)%Z by lia.
  pose proof (radius_steps n k). pose proof (radius_pos n).
  pose proof (radius_step_gap (n + Z.of_nat (S k))). lra.
Qed.

Lemma powerRZ_LZ_in_float_range (n : Z) :
  in_float_range n -> / 10 ^ 300 < powerRZ LZ n < 10 ^ 300.
Proof.
  intros [Hlo Hhi].
  assert (Hup : forall k : Z, (k <= 3000)%Z -> powerRZ LZ k < 10 ^ 300).
  { intros k Hk. pose proof (powerRZ_LZ_monotone k 3000 Hk).
    pose proof powerRZ_LZ_3000.
    assert (H9 : 9 ^ 300 < 10 ^ 300).
    { change (9 ^ 300) with (9 * 9 ^ 299). change (10 ^ 300) with (10 * 10 ^ 299).
      assert (9 ^ 299 <= 10 ^ 299) by (apply pow_incr; lra).
      assert (0 < 9 ^ 299) by (apply pow_lt; lra).
      lra. }
    lra. }
  split; [|now apply Hup].
  replace n with (- (- n))%Z by lia.
  rewrite powerRZ_neg'.
  apply Rinv_lt_contravar.
  - apply Rmult_lt_0_compat; [apply powerRZ_lt, LZ_pos|].
    apply pow_lt. lra.
  - apply Hup. lia.
Qed.

(** X1. For the harmonic steps between -3000 and 3000 the radius is
    positive, within ten per cent of the unmodulated radius
    [R_EARTH * LZ ** n], and between [5000 / 10 ^ 300] and
    [8000 * 10 ^ 300], well inside the range of binary64. *)
Theorem radius_within_ten_percent (n : Z) :
  in_float_range n ->
  0 < com_lz_attractor_radius n
  /\ 0.9 * (R_EARTH * powerRZ LZ n) <= com_lz_attractor_radius n
  /\ com_lz_attractor_radius n <= 1.1 * (R_EARTH * powerRZ LZ n)
  /\ 5000 / 10 ^ 300 < com_lz_attractor_radius n < 8000 * 10 ^ 300.
Proof.
  intros Hn.
  pose proof (radius_base_bounds n) as [Hlo Hhi]. unfold base_radius in Hlo, Hhi.
  pose proof (powerRZ_LZ_in_float_range n Hn) as [Hplo Hphi].
  split; [apply radius_pos|]. split; [exact Hlo|]. split; [exact Hhi|].
  unfold R_EARTH in Hlo, Hhi. unfold Rdiv. split; lra.
Qed.

Lemma radius_within_ten_percent_at_1 :
  5000 / 10 ^ 300 < com_lz_attractor_radius 1 < 8000 * 10 ^ 300.
Proof.
  destruct (radius_within_ten_percent 1) as [_ [_ [_ Hrange]]].
  - unfold in_float_range. lia.
  - exact Hrange.
Defined.

(** X2. Between the harmonic steps -3000 and 3000 the attractor radii
    grow strictly with the step, by more than one per cent from a step
    to any later one, so different steps never share a radius. *)
Theorem radius_strictly_increasing (n m : Z) :
  in_float_range n ->
  in_float_range m ->
  ((n < m)%Z -> 1.01 * com_lz_attractor_radius n < com_lz_attractor_radius m)
  /\ ((n < m)%Z -> com_lz_attractor_radius n < com_lz_attractor_radius m)
  /\ (com_lz_attractor_radius n = com_lz_attractor_radius m -> n = m).
Proof.
  intros _ _.
  assert (Hgap : forall a b : Z,
             (a < b)%Z ->
             1.01 * com_lz_attractor_radius a < com_lz_attractor_radius b).
  { intros a b Hab.
    replace b with (a + Z.of_nat (S (Z.to_nat (b - a - 1))))%Z by lia.
    apply radius_steps_gap. }
  assert (Hlt : forall a b : Z,
             (a < b)%Z -> com_lz_attractor_radius a < com_lz_attractor_radius b).
  { intros a b Hab. pose proof (Hgap a b Hab). pose proof (radius_pos a). lra. }
  split; [apply Hgap|]. split; [apply Hlt|].
  intros Heq.
  destruct (Z.lt_trichotomy n m) as [H|[H|H]]; [|assumption|];
    apply Hlt in H; lra.
Qed.

Lemma radius_strictly_increasing_2_5 :
  com_lz_attractor_radius 2 < com_lz_attractor_radius 5.
Proof.
  destruct (radius_strictly_increasing 2 5) as [_ [Hlt _]].
  - unfold in_float_range. lia.
  - unfold in_float_range. lia.
  - apply Hlt. lia.
Defined.

(** X3. At a harmonic step that is a multiple of nine the modulation
    vanishes: the radius is exactly [R_EARTH * LZ ** n]. *)
Theorem radius_at_multiple_of_9 (n : Z) :
  (n mod 9 = 0)%Z -> com_lz_attractor_radius n = R_EARTH * powerRZ LZ n.
Proof.
  intros Hn. unfold com_lz_attractor_radius, base_radius.
  rewrite (octave_factor_multiple_of_9 n Hn), Rmult_1_l, sin_2PI. ring.
Qed.

Lemma radius_at_9 : com_lz_attractor_radius 9 = R_EARTH * powerRZ LZ 9.
Proof. apply (radius_at_multiple_of_9 9). reflexivity. Defined.

(** X4. Step 0 is the surface of the Earth; every positive step lies
    above it and every negative step below it. *)
Theorem radius_against_earth_surface (n : Z) :
  com_lz_attractor_radius 0 = R_EARTH
  /\ ((0 < n)%Z -> R_EARTH < com_lz_attractor_radius n)
  /\ ((n < 0)%Z -> com_lz_attractor_radius n < R_EARTH).
Proof.
  split; [apply radius_0|]. rewrite <- radius_0. split; intros Hn.
  - replace n with (0 + Z.of_nat (S (Z.to_nat (n - 1))))%Z by lia.
    apply radius_steps.
  - pose proof (radius_steps n (Z.to_nat (- n - 1))) as H.
    now replace (n + Z.of_nat (S (Z.to_nat (- n - 1))))%Z with 0%Z in H by lia.
Qed.

Lemma radius_against_earth_surface_3 : R_EARTH < com_lz_attractor_radius 3.
Proof.
  destruct (radius_against_earth_surface 3) as [_ [Hpos _]].
  apply Hpos. lia.
Defined.

(** ** PotentialField *)




(** ** DriftDynamics *)

Lemma drift_acceleration_array (p v : R) (rest : list R) (t : R)
    (n_vals : list Z) :
  drift_acceleration (p :: v :: rest) t n_vals
  = Some [v;
          - ((Np.Rsum (map (fun x => potential_at x n_vals)
                           (map (fun x => x + 1) (p :: v :: rest)))
              - Np.Rsum (map (fun x => potential_at x n_vals)
                             (map (fun x => x - 1) (p :: v :: rest))))
             / (2 * 1))
          + - 0.1 * v].
Proof.
  unfold drift_acceleration. now rewrite !resonance_potential_array.
Qed.

(** X8. A state array with fewer than two entries makes
    [drift_acceleration] raise (the index [r[1]] is out of range); with
    two entries or more it returns a pair whose first component is the
    velocity entry [r[1]]. *)
Theorem drift_acceleration_needs_two_entries (t : R) (n_vals : list Z) :
  drift_acceleration [] t n_vals = None
  /\ (forall p, drift_acceleration [p] t n_vals = None)
  /\ (forall p v rest, exists a,
        drift_acceleration (p :: v :: rest) t n_vals = Some [v; a]).
Proof.
  split; [|split].
  - unfold drift_acceleration. now rewrite !resonance_potential_array.
  - intros p. unfold drift_acceleration. now rewrite !resonance_potential_array.
  - intros p v rest. eexists. apply drift_acceleration_array.
Qed.

(** X9. With no attractor the right-hand side is pure damping:
    [[velocity, -0.1 * velocity]]. *)
Theorem drift_acceleration_without_attractors (p v t : R) (rest : list R) :
  drift_acceleration (p :: v :: rest) t [] = Some [v; - 0.1 * v].
Proof.
  rewrite drift_acceleration_array.
  assert (Hz : forall l : list R,
             Np.Rsum (map (fun x => potential_at x []) l) = 0).
  { intros l. apply (Rsum_map_zero l). }
  rewrite !Hz. do 3 f_equal. lra.
Qed.

(** X10. For a two-entry state the acceleration differs from the
    damping term [-0.1 * velocity] by at most the number of
    attractors. *)
Theorem drift_acceleration_bounded (p v t : R) (n_vals : list Z) :
  exists a,
    drift_acceleration [p; v] t n_vals = Some [v; a]
    /\ Rabs (a + 0.1 * v) <= INR (length n_vals).
Proof.
  eexists. split; [apply drift_acceleration_value|].
  pose proof (potential_at_range (p + 1) n_vals).
  pose proof (potential_at_range (v + 1) n_vals).
  pose proof (potential_at_range (p - 1) n_vals).
  pose proof (potential_at_range (v - 1) n_vals).
  apply Rabs_le. split; lra.
Qed.

(** ** TrajectorySimulator *)

Lemma linspace_negative (start stop : R) (num : Z) :
  (num < 0)%Z -> Np.linspace start stop num = None.
Proof.
  intros Hnum. unfold Np.linspace.
  destruct (Z.ltb_spec num 0); [reflexivity|lia].
Qed.

(** X11. Asking for a negative number of points makes
    [simulate_debris_drift] raise before it touches anything, whatever
    the integrator; with no particle and a non-negative number of
    points it returns the empty frame without integrating. *)
Theorem simulate_without_points_or_particles (odeint : integrator)
    (initial_radii : list R) (t_span : R) (num_points : Z) (s : store) :
  ((num_points < 0)%Z ->
   simulate_debris_drift odeint initial_radii t_span num_points s = (None, s))
  /\ ((0 <= num_points)%Z ->
      simulate_debris_drift odeint [] t_span num_points s
      = (Some [], mkStore (n_vals_obj s) [])).
Proof.
  split; intros Hnum; rewrite simulate_debris_drift_unfold.
  - now rewrite linspace_negative.
  - destruct (linspace_from_0 t_span num_points Hnum) as [t [Ht _]].
    now rewrite Ht.
Qed.

Lemma simulate_without_points_or_particles_at :
  simulate_debris_drift euler [7000; 9000] 100 (-1) (mkStore [3; 5; 7]%Z [])
  = (None, mkStore [3; 5; 7]%Z [])
  /\ simulate_debris_drift euler [] 100 1000 (mkStore [3; 5; 7]%Z [])
     = (Some [], mkStore [3; 5; 7]%Z []).
Proof.
  split.
  - apply (simulate_without_points_or_particles euler [7000; 9000] 100 (-1)). lia.
  - apply (simulate_without_points_or_particles euler [] 100 1000
             (mkStore [3; 5; 7]%Z [])). lia.
Defined.

Lemma mapM_nth_error {A B} (f : A -> py B) (l : list A) (ys : list B) :
  mapM f l = Some ys ->
  forall k x, nth_error l k = Some x ->
              exists y, nth_error ys k = Some y /\ f x = Some y.
Proof.
  revert ys. induction l as [|a l IH]; intros ys Hm k x Hk.
  - destruct k; discriminate.
  - rewrite mapM_cons in Hm.
    destruct (f a) as [b|] eqn:Hfa; [|discriminate].
    destruct (mapM f l) as [bs|]; [|discriminate].
    injection Hm as <-.
    destruct k as [|k]; simpl in Hk |- *.
    + injection Hk as <-. now exists b.
    + now apply (IH bs eq_refl).
Qed.

Lemma mapM_In {A B} (f : A -> py B) (l : list A) (ys : list B) :
  mapM f l = Some ys ->
  forall y, In y ys -> exists x, In x l /\ f x = Some y.
Proof.
  revert ys. induction l as [|a l IH]; intros ys Hm y Hy.
  - injection Hm as <-. contradiction.
  - rewrite mapM_cons in Hm.
    destruct (f a) as [b|] eqn:Hfa; [|discriminate].
    destruct (mapM f l) as [bs|]; [|discriminate].
    injection Hm as <-.
    destruct Hy as [<-|Hy].
    + exists a. split; [now left|assumption].
    + destruct (IH bs eq_refl y Hy) as [x [Hx Hfx]].
      exists x. split; [now right|assumption].
Qed.

Lemma mapM_length {A B} (f : A -> py B) (l : list A) (ys : list B) :
  mapM f l = Some ys -> length ys = length l.
Proof.
  revert ys. induction l as [|a l IH]; intros ys Hm.
  - now injection Hm as <-.
  - rewrite mapM_cons in Hm.
    destruct (f a) as [b|]; [|discriminate].
    destruct (mapM f l) as [bs|]; [|discriminate].
    injection Hm as <-. simpl. now rewrite (IH bs).
Qed.

Lemma combine_seq_nth_error {A} (l : list A) (a k : nat) (x : A) :
  nth_error l k = Some x ->
  nth_error (combine (seq a (length l)) l) k = Some ((a + k)%nat, x).
Proof.
  revert a k. induction l as [|y l IH]; intros a k Hk.
  - destruct k; discriminate.
  - destruct k as [|k]; simpl in Hk |- *.
    + injection Hk as <-. now rewrite Nat.add_0_r.
    + rewrite (IH (S a) k Hk). do 2 f_equal. lia.
Qed.

Lemma enumerate_nth_error {A} (l : list A) (k : nat) (x : A) :
  nth_error l k = Some x -> nth_error (enumerate l) k = Some (k, x).
Proof. intros Hk. apply (combine_seq_nth_error l 0 k x Hk). Qed.

Lemma concat_uniform_length {A} (blocks : list (list A)) (m : nat) :
  Forall (fun b => length b = m) blocks ->
  length (concat blocks) = (length blocks * m)%nat.
Proof.
  induction 1 as [|b blocks Hb _ IH]; simpl; [reflexivity|].
  rewrite length_app, IH, Hb. lia.
Qed.

Lemma concat_uniform_nth_error {A} (blocks : list (list A)) (m k j : nat)
    (b : list A) :
  Forall (fun b => length b = m) blocks ->
  nth_error blocks k = Some b ->
  (j < m)%nat ->
  nth_error (concat blocks) (k * m + j) = nth_error b j.
Proof.
  intros Hall. revert k. induction Hall as [|c blocks Hc _ IH]; intros k Hk Hj.
  - destruct k; discriminate.
  - destruct k as [|k]; simpl in Hk |- *.
    + injection Hk as <-. apply nth_error_app1. lia.
    + rewrite nth_error_app2 by lia.
      replace (m + k * m + j - length c)%nat with (k * m + j)%nat by lia.
      now apply IH.
Qed.

Section Layout.

Variable odeint : integrator.
Hypothesis odeint_ok : integrator_contract odeint.

Lemma trajectory_blocks (nv : list Z) (t : list R) (rs : list R)
    (blocks : list (list row)) :
  t <> [] ->
  ascending t ->
  mapM (particle_trajectory odeint nv t) (enumerate rs) = Some blocks ->
  length blocks = length rs
  /\ Forall (fun b => length b = length t) blocks
  /\ (forall k r0, nth_error rs k = Some r0 ->
        exists b d0,
          nth_error blocks k = Some b
          /\ map time b = t
          /\ Forall (fun d => particle d = k) b
          /\ nth_error b 0 = Some d0 /\ radius d0 = r0 /\ velocity d0 = 0).
Proof.
  intros Hne Hasc Hm. split; [|split].
  - rewrite (mapM_length _ _ _ Hm). apply enumerate_length.
  - apply Forall_forall. intros b Hb.
    destruct (mapM_In _ _ _ Hm b Hb) as [[i r] [_ Hf]].
    destruct (particle_trajectory_returns odeint odeint_ok nv t i r Hne Hasc)
      as [rows [Hrows [Hlen _]]].
    rewrite Hrows in Hf. now injection Hf as <-.
  - intros k r0 Hk.
    destruct (mapM_nth_error _ _ _ Hm k (k, r0) (enumerate_nth_error rs k r0 Hk))
      as [b [Hb Hf]].
    destruct (particle_trajectory_returns odeint odeint_ok nv t k r0 Hne Hasc)
      as [rows [Hrows [_ [Htime [Hpart [d0 [Hd0 [Hrad Hvel]]]]]]]].
    rewrite Hrows in Hf. injection Hf as <-.
    exists rows, d0. auto 10.
Qed.

End Layout.

(** X12. Under the integrator contract, for a positive time span and at
    least two points, the frame has [num_points] rows per particle,
    particle after particle in the order of [initial_radii]: row
    [k * num_points + j] carries particle index [k] and time
    [j * t_span / (num_points - 1)], and the first row of each particle
    holds its initial radius with velocity 0. *)
Theorem simulate_frame_layout (odeint : integrator) (initial_radii : list R)
    (t_span : R) (num_points : Z) (s : store) :
  integrator_contract odeint ->
  0 < t_span ->
  (2 <= num_points)%Z ->
  exists df s',
    simulate_debris_drift odeint initial_radii t_span num_points s = (Some df, s')
    /\ length df = (length initial_radii * Z.to_nat num_points)%nat
    /\ (forall k r0 j,
          nth_error initial_radii k = Some r0 ->
          (j < Z.to_nat num_points)%nat ->
          exists d,
            nth_error df (k * Z.to_nat num_points + j) = Some d
            /\ particle d = k
            /\ time d = INR j * (t_span / IZR (num_points - 1))
            /\ (j = 0%nat -> radius d = r0 /\ velocity d = 0)).
Proof.
  intros Hode HT Hnum.
  destruct (grid_for_simulation t_span num_points HT Hnum)
    as [t [Ht [Hlen [Hnth [_ [Hne Hasc]]]]]].
  destruct (simulate_debris_drift_returns odeint Hode initial_radii t_span
              num_points s t Ht Hne Hasc) as [blocks [s' [Hblocks [Hrun _]]]].
  destruct (trajectory_blocks odeint Hode (n_vals_obj s) t initial_radii blocks
              Hne Hasc Hblocks) as [Hlb [Hall Hblock]].
  exists (concat blocks), s'. split; [exact Hrun|]. split.
  - rewrite (concat_uniform_length blocks (length t) Hall). now rewrite Hlb, Hlen.
  - intros k r0 j Hk Hj.
    destruct (Hblock k r0 Hk) as [b [d0 [Hb [Htime [Hpart [Hd0 [Hrad Hvel]]]]]]].
    rewrite <- Hlen.
    rewrite (concat_uniform_nth_error blocks (length t) k j b Hall Hb) by lia.
    assert (Hjb : (j < length b)%nat).
    { rewrite <- (length_map time b), Htime. lia. }
    destruct (nth_error b j) as [d|] eqn:Hd;
      [|apply nth_error_None in Hd; lia].
    exists d. split; [reflexivity|]. split.
    { rewrite Forall_forall in Hpart. apply Hpart.
      eapply nth_error_In; eassumption. }
    split.
    { assert (Hdt : nth_error (map time b) j = Some (time d))
        by now rewrite nth_error_map, Hd.
      rewrite Htime, Hnth in Hdt by lia. now injection Hdt. }
    intros ->. rewrite Hd0 in Hd. injection Hd as <-. now split.
Qed.

Lemma simulate_frame_layout_euler :
  integrator_contract euler
  /\ exists df s',
       simulate_debris_drift euler [7000; 9000] 10 3 (mkStore [3; 5; 7]%Z [])
       = (Some df, s')
       /\ length df = 6%nat
       /\ exists d, nth_error df 3 = Some d
                    /\ particle d = 1%nat /\ radius d = 9000 /\ velocity d = 0.
Proof.
  split; [exact euler_contract|].
  destruct (simulate_frame_layout euler [7000; 9000] 10 3 (mkStore [3; 5; 7]%Z [])
              euler_contract) as [df [s' [Hrun [Hlen Hrows]]]]; [lra|lia|].
  exists df, s'. split; [exact Hrun|]. split; [exact Hlen|].
  destruct (Hrows 1%nat 9000 0%nat eq_refl) as [d [Hd [Hp [_ Hfirst]]]];
    [simpl; lia|].
  destruct (Hfirst eq_refl) as [Hrad Hvel].
  exists d. auto.
Defined.

(** ** Selecting the particles for [plot_drift_simulation] *)

Lemma filter_none {A} (f : A -> bool) (l : list A) :
  (forall x, In x l -> f x = false) -> filter f l = [].
Proof.
  induction l as [|a l IH]; intros H; simpl; [reflexivity|].
  rewrite (H a) by now left. apply IH. intros x Hx. apply H. now right.
Qed.

Lemma filter_all {A} (f : A -> bool) (l : list A) :
  (forall x, In x l -> f x = true) -> filter f l = l.
Proof.
  induction l as [|a l IH]; intros H; simpl; [reflexivity|].
  rewrite (H a) by now left. f_equal. apply IH. intros x Hx. apply H. now right.
Qed.

Lemma filter_swap {A} (f g : A -> bool) (l : list A) :
  filter f (filter g l) = filter g (filter f l).
Proof.
  induction l as [|a l IH]; simpl; [reflexivity|].
  destruct (f a) eqn:Hf, (g a) eqn:Hg; simpl; rewrite ?Hf, ?Hg, IH; reflexivity.
Qed.

Lemma unique_In (x : nat) (l : list nat) : In x (unique l) -> In x l.
Proof.
  induction l as [|a l IH]; simpl; [tauto|].
  intros [->|Hx]; [now left|].
  apply filter_In in Hx. right. now apply IH.
Qed.

Lemma unique_filter (f : nat -> bool) (l : list nat) :
  filter f (unique l) = unique (filter f l).
Proof.
  induction l as [|a l IH]; simpl; [reflexivity|].
  destruct (f a) eqn:Hf; simpl.
  - f_equal. now rewrite filter_swap, IH.
  - rewrite filter_swap, IH. apply filter_all.
    intros x Hx. apply unique_In, filter_In in Hx.
    destruct (Nat.eqb_spec x a) as [->|]; [|reflexivity].
    destruct Hx as [_ Hx]. congruence.
Qed.

Lemma blocks_from_particle (a : nat) (blocks : list (list row)) (d : row) :
  blocks_from a blocks -> In d (concat blocks) -> (a <= particle d)%nat.
Proof.
  revert a. induction blocks as [|b bs IH]; intros a Hb Hd; [contradiction|].
  destruct Hb as [_ [Hall Hbs]]. simpl in Hd. apply in_app_or in Hd.
  destruct Hd as [Hd|Hd].
  - rewrite Forall_forall in Hall. rewrite (Hall d Hd). lia.
  - specialize (IH (S a) Hbs Hd). lia.
Qed.

Lemma blocks_from_data (a k : nat) (blocks : list (list row)) :
  blocks_from a blocks ->
  particle_data (concat blocks) (a + k) = nth k blocks [].
Proof.
  revert a k. induction blocks as [|b bs IH]; intros a k Hb.
  - now destruct k.
  - destruct Hb as [_ [Hall Hbs]]. rewrite Forall_forall in Hall.
    unfold particle_data. simpl concat. rewrite filter_app.
    destruct k as [|k]; simpl nth.
    + rewrite filter_all, filter_none; [apply app_nil_r| |].
      * intros d Hd. apply Nat.eqb_neq.
        pose proof (blocks_from_particle (S a) bs d Hbs Hd). lia.
      * intros d Hd. apply Nat.eqb_eq. rewrite (Hall d Hd). lia.
    + rewrite filter_none.
      * replace (a + S k)%nat with (S a + k)%nat by lia. now apply IH.
      * intros d Hd. apply Nat.eqb_neq. rewrite (Hall d Hd). lia.
Qed.

Lemma blocks_from_unique (a : nat) (blocks : list (list row)) :
  blocks_from a blocks ->
  unique (map particle (concat blocks)) = seq a (length blocks).
Proof.
  revert a. induction blocks as [|b bs IH]; intros a Hb; [reflexivity|].
  destruct Hb as [Hne [Hall Hbs]]. rewrite Forall_forall in Hall.
  destruct b as [|d b]; [contradiction|].
  simpl. rewrite (Hall d) by now left. f_equal.
  rewrite unique_filter, map_app, filter_app.
  rewrite filter_none, filter_all; [now apply IH| |].
  - intros x Hx. apply in_map_iff in Hx. destruct Hx as [e [<- He]].
    apply Bool.negb_true_iff, Nat.eqb_neq.
    pose proof (blocks_from_particle (S a) bs e Hbs He). lia.
  - intros x Hx. apply in_map_iff in Hx. destruct Hx as [e [<- He]].
    apply Bool.negb_false_iff, Nat.eqb_eq. apply Hall. now right.
Qed.

Lemma blocks_from_nth (a : nat) (blocks : list (list row)) :
  (forall k b, nth_error blocks k = Some b ->
               b <> [] /\ Forall (fun d => particle d = (a + k)%nat) b) ->
  blocks_from a blocks.
Proof.
  revert a. induction blocks as [|b bs IH]; intros a H; [exact I|].
  destruct (H 0%nat b eq_refl) as [Hne Hall]. rewrite Nat.add_0_r in Hall.
  split; [assumption|]. split; [assumption|].
  apply IH. intros k c Hk.
  replace (S a + k)%nat with (a + S k)%nat by lia. now apply H.
Qed.

(** X13. Under the integrator contract, for a positive time span and at
    least two points: the frame simulated for a non-empty list of
    particles gives [plot_drift_simulation] exactly one line per
    particle, labelled 0, 1, ... in order, whose time column is the
    grid and whose radius column has [num_points] values starting at
    the particle's initial radius; the frame simulated for no particle
    has no [particle] column, and selecting on it raises. *)
Theorem drift_lines_of_simulation (odeint : integrator) (t_span : R)
    (num_points : Z) (s : store) :
  integrator_contract odeint ->
  0 < t_span ->
  (2 <= num_points)%Z ->
  (exists s',
      simulate_debris_drift odeint [] t_span num_points s = (Some [], s')
      /\ drift_lines [] = None)
  /\ (forall initial_radii : list R,
        initial_radii <> [] ->
        exists t df s' lines,
          Np.linspace 0 t_span num_points = Some t
          /\ simulate_debris_drift odeint initial_radii t_span num_points s
             = (Some df, s')
          /\ drift_lines df = Some lines
          /\ map fst lines = seq 0 (length initial_radii)
          /\ (forall k r0,
                nth_error initial_radii k = Some r0 ->
                exists radii,
                  nth_error lines k = Some (k, (t, radii))
                  /\ length radii = Z.to_nat num_points
                  /\ nth_error radii 0 = Some r0)).
Proof.
  intros Hode HT Hnum. split.
  { eexists. split; [|reflexivity].
    rewrite simulate_debris_drift_unfold.
    destruct (linspace_from_0 t_span num_points) as [t [Ht _]]; [lia|].
    now rewrite Ht. }
  intros rs Hrs.
  destruct (grid_for_simulation t_span num_points HT Hnum)
    as [t [Ht [Hlen [_ [_ [Hne Hasc]]]]]].
  destruct (simulate_debris_drift_returns odeint Hode rs t_span
              num_points s t Ht Hne Hasc) as [blocks [s' [Hblocks [Hrun _]]]].
  destruct (trajectory_blocks odeint Hode (n_vals_obj s) t rs blocks
              Hne Hasc Hblocks) as [Hlb [Hall Hblock]].
  assert (Hfrom : blocks_from 0 blocks).
  { apply blocks_from_nth. intros k b Hb.
    assert (Hk : (k < length rs)%nat).
    { rewrite <- Hlb. apply nth_error_Some. congruence. }
    destruct (nth_error rs k) as [r0|] eqn:Hr0;
      [|apply nth_error_None in Hr0; lia].
    destruct (Hblock k r0 Hr0) as [b' [d0 [Hb' [_ [Hpart [Hd0 _]]]]]].
    rewrite Hb in Hb'. injection Hb' as <-.
    split; [|exact Hpart]. intros ->. discriminate. }
  assert (Hcol : particle_column (concat blocks)
                 = Some (map particle (concat blocks))).
  { destruct rs as [|r0 rs']; [contradiction|].
    destruct (Hblock 0%nat r0 eq_refl) as [b [d0 [Hb [_ [_ [Hd0 _]]]]]].
    destruct blocks as [|c blocks']; [discriminate|]. injection Hb as ->.
    destruct b as [|d b]; [discriminate|]. reflexivity. }
  exists t, (concat blocks), s'. eexists.
  split; [exact Ht|]. split; [exact Hrun|].
  split; [unfold drift_lines; rewrite Hcol; reflexivity|].
  rewrite (blocks_from_unique 0 blocks Hfrom), Hlb.
  split.
  { rewrite map_map. simpl. apply map_id. }
  intros k r0 Hk.
  destruct (Hblock k r0 Hk) as [b [d0 [Hb [Htime [_ [Hd0 [Hrad _]]]]]]].
  assert (Hkn : (k < length rs)%nat) by (apply nth_error_Some; congruence).
  exists (map radius b).
  rewrite nth_error_map, nth_error_seq.
  destruct (Nat.ltb_spec k (length rs)) as [_|]; [|lia]. simpl.
  pose proof (blocks_from_data 0 k blocks Hfrom) as Hdata.
  change (0 + k)%nat with k in Hdata. rewrite Hdata.
  rewrite (nth_error_nth _ _ [] Hb), Htime.
  split; [reflexivity|]. split.
  - rewrite length_map, <- (length_map time b), Htime. exact Hlen.
  - change (nth_error (map radius b) 0 = Some r0).
    rewrite nth_error_map, Hd0. simpl. now rewrite Hrad.
Qed.

Lemma drift_lines_of_simulation_euler :
  integrator_contract euler
  /\ exists df s' lines,
       simulate_debris_drift euler [7000; 9000] 10 3 (mkStore [3; 5; 7]%Z [])
       = (Some df, s')
       /\ drift_lines df = Some lines
       /\ map fst lines = [0%nat; 1%nat].
Proof.
  split; [exact euler_contract|].
  destruct (drift_lines_of_simulation euler 10 3 (mkStore [3; 5; 7]%Z [])
              euler_contract) as [_ Hlines]; [lra|lia|].
  destruct (Hlines [7000; 9000]) as [t [df [s' [lines [_ [Hrun [Hl [Hfst _]]]]]]]];
    [discriminate|].
  exists df, s', lines. auto.
Defined.

(** ** The window of [plot_attractor_map] *)

Lemma radius_monotone (n m : Z) :
  (n <= m)%Z -> com_lz_attractor_radius n <= com_lz_attractor_radius m.
Proof.
  intros Hnm. destruct (Z.eq_dec n m) as [->|Hne]; [lra|].
  replace m with (n + Z.of_nat (S (Z.to_nat (m - n - 1))))%Z by lia.
  left. apply radius_steps.
Qed.

Lemma fold_left_Rmax_ge (l : list R) (x : R) :
  x <= fold_left Rmax l x /\ (forall y, In y l -> y <= fold_left Rmax l x).
Proof.
  revert x. induction l as [|a l IH]; intros x; simpl.
  - split; [lra|tauto].
  - destruct (IH (Rmax x a)) as [Hx Hl].
    pose proof (Rmax_l x a). pose proof (Rmax_r x a).
    split; [lra|]. intros y [<-|Hy]; [lra|now apply Hl].
Qed.

Lemma fold_left_Rmax_In (l : list R) (x : R) : In (fold_left Rmax l x) (x :: l).
Proof.
  revert x. induction l as [|a l IH]; intros x; simpl; [now left|].
  destruct (IH (Rmax x a)) as [H|H]; [|now right; right].
  rewrite <- H. unfold Rmax. destruct (Rle_dec x a); [right|]; now left.
Qed.

(** X14. [plot_attractor_map] cannot size its window for an empty range
    of steps ([max] raises).  For a non-empty range of steps between
    -3000 and 3000 the half-width of the window is 1.1 times the radius
    of the largest step listed, and every ring lies strictly inside the
    window. *)
Theorem max_radius_window :
  max_radius [] = None
  /\ (forall (n : Z) (l : list Z),
        Forall in_float_range (n :: l) ->
        exists m,
          max_radius (n :: l) = Some m
          /\ (forall k, In k (n :: l) -> com_lz_attractor_radius k < m)
          /\ (forall k, In k (n :: l) ->
                        (forall j, In j (n :: l) -> (j <= k)%Z) ->
                        m = com_lz_attractor_radius k * 1.1)).
Proof.
  split; [reflexivity|]. intros n l _.
  set (top := fold_left Rmax (map com_lz_attractor_radius l)
                (com_lz_attractor_radius n)).
  exists (top * 1.1). split; [reflexivity|].
  assert (Hge : forall k, In k (n :: l) -> com_lz_attractor_radius k <= top).
  { intros k [<-|Hk].
    - apply (proj1 (fold_left_Rmax_ge _ _)).
    - apply (proj2 (fold_left_Rmax_ge _ _)). now apply in_map. }
  split.
  - intros k Hk. specialize (Hge k Hk). pose proof (radius_pos k). lra.
  - intros k Hk Hmax. f_equal. apply Rle_antisym; [|now apply Hge].
    assert (Hin : In top (map com_lz_attractor_radius (n :: l)))
      by apply fold_left_Rmax_In.
    apply in_map_iff in Hin. destruct Hin as [j [<- Hj]].
    apply radius_monotone. now apply Hmax.
Qed.

(** ** The collector of [plot_collector_field] *)



(** The window for the steps 3, 5 and 7 is set by step 7. *)
Lemma max_radius_window_357 :
  exists m,
    max_radius [3; 5; 7]%Z = Some m /\ m = com_lz_attractor_radius 7 * 1.1.
Proof.
  destruct max_radius_window as [_ Hwin].
  destruct (Hwin 3%Z [5; 7]%Z) as [m [Hm [_ Hmax]]].
  { repeat constructor; unfold in_float_range; lia. }
  exists m. split; [exact Hm|].
  apply Hmax.
  - simpl. right. right. left. reflexivity.
  - intros j [<-|[<-|[<-|[]]]]; lia.
Defined.

